(** * Numeric evaluation of Mathics ([mathics/builtin/numeric.py])

    A shallow embedding of the builtins [N], [Precision], [Round], [Chop],
    [NumericQ], [IntegerDigits] and [Hash], and the properties of them that
    the specification states.

    Conventions.
    - Python floats and sympy [Float]s are carried as the rational number
      they denote ([Q]); the float operations of [round] are rounded the
      way sympy rounds them.
    - A builtin that returns [None] leaves the call it was applied to as it
      is; this is the [Unevaluated] result, which also carries the messages
      reported through [evaluation.message] on the way. *)

From Stdlib Require Import ZArith QArith Qround Lqa String List Bool Lia.
From Stdlib Require Import Hexadecimal HexadecimalString HexadecimalPos
  HexadecimalZ.
From stdpp Require Import base option list strings gmap.
Import ListNotations.

#[local] Set Warnings "-register-all".

Local Open Scope string_scope.
Local Open Scope list_scope.
Local Open Scope Z_scope.

(** ** Expressions ([mathics.core.expression]) *)

(** Modelled from the spec: the expression classes, which this module
    imports from [mathics.core.expression]. Section 3: an expression is an
    atom (a number, a symbol or a string) or a head with leaves; the numbers
    are the exact integers and rationals, the machine reals, the
    arbitrary-precision reals and the complex numbers. *)
Inductive expr : Type :=
| Integer (value : Z)
| Rational (value : Q)
| MachineReal (value : Q)
| PrecisionReal (value : Q) (prec : Z)
| Complex (real imag : expr)
| Symbol (name : string)
| String (value : string)
| Expression (head : expr) (leaves : list expr).

(** Induction that also gives the hypothesis for every leaf. *)
Section ExprInd.
Variable P : expr → Prop.
Hypothesis HInteger : ∀ v, P (Integer v).
Hypothesis HRational : ∀ v, P (Rational v).
Hypothesis HMachineReal : ∀ v, P (MachineReal v).
Hypothesis HPrecisionReal : ∀ v p, P (PrecisionReal v p).
Hypothesis HComplex : ∀ re im, P re → P im → P (Complex re im).
Hypothesis HSymbol : ∀ n, P (Symbol n).
Hypothesis HString : ∀ s, P (String s).
Hypothesis HExpression :
  ∀ h ls, P h → Forall P ls → P (Expression h ls).

Fixpoint expr_leaves_ind (e : expr) : P e :=
  match e with
  | Integer v => HInteger v
  | Rational v => HRational v
  | MachineReal v => HMachineReal v
  | PrecisionReal v p => HPrecisionReal v p
  | Complex re im => HComplex re im (expr_leaves_ind re) (expr_leaves_ind im)
  | Symbol n => HSymbol n
  | String s => HString s
  | Expression h ls =>
      HExpression h ls (expr_leaves_ind h)
        ((fix go (l : list expr) : Forall P l :=
            match l with
            | [] => List.Forall_nil P
            | x :: l' => @List.Forall_cons _ P x l' (expr_leaves_ind x) (go l')
            end) ls)
  end.
End ExprInd.

(** Modelled from the spec: [same], the syntactic identity of two
    expressions. *)
Definition Q_same (a b : Q) : bool :=
  Z.eqb (Qnum a) (Qnum b) && Pos.eqb (Qden a) (Qden b).

Fixpoint same (a b : expr) {struct a} : bool :=
  match a, b with
  | Integer x, Integer y => Z.eqb x y
  | Rational x, Rational y => Q_same x y
  | MachineReal x, MachineReal y => Q_same x y
  | PrecisionReal x p, PrecisionReal y q => Q_same x y && Z.eqb p q
  | Complex r i, Complex r' i' => same r r' && same i i'
  | Symbol n, Symbol m => String.eqb n m
  | String s, String t => String.eqb s t
  | Expression h ls, Expression h' ls' =>
      same h h' &&
      (fix same_list (l l' : list expr) {struct l} : bool :=
         match l, l' with
         | [], [] => true
         | x :: t, y :: t' => same x y && same_list t t'
         | _, _ => false
         end) ls ls'
  | _, _ => false
  end.

(** [Expression('N', expr, prec)]: symbols named without a context live in
    [System`]. *)
Definition N_request (e prec : expr) : expr :=
  Expression (Symbol "System`N") [e; prec].

Definition List_ (leaves : list expr) : expr :=
  Expression (Symbol "System`List") leaves.

(** Modelled from the spec: the accessors of the expression classes that
    this module calls, [is_atom], [get_name], [get_head], [get_head_name],
    [get_lookup_name] and [leaves]. *)
Definition is_atom (e : expr) : bool :=
  match e with Expression _ _ => false | _ => true end.

(** [isinstance(e, Number)] *)
Definition is_Number (e : expr) : bool :=
  match e with
  | Integer _ | Rational _ | MachineReal _ | PrecisionReal _ _
  | Complex _ _ => true
  | _ => false
  end.

(** [isinstance(e, Real)]: the machine and the arbitrary-precision reals. *)
Definition is_Real (e : expr) : bool :=
  match e with MachineReal _ | PrecisionReal _ _ => true | _ => false end.

Definition get_name (e : expr) : string :=
  match e with Symbol n => n | _ => "" end.

Definition get_head (e : expr) : expr :=
  match e with
  | Integer _ => Symbol "System`Integer"
  | Rational _ => Symbol "System`Rational"
  | MachineReal _ | PrecisionReal _ _ => Symbol "System`Real"
  | Complex _ _ => Symbol "System`Complex"
  | Symbol _ => Symbol "System`Symbol"
  | String _ => Symbol "System`String"
  | Expression h _ => h
  end.

Definition get_head_name (e : expr) : string := get_name (get_head e).

(** The name of the leftmost head: [f] for [f[x][y]], the symbol's own name
    for a symbol, the empty string where there is none. *)
Fixpoint get_lookup_name (e : expr) : string :=
  match e with
  | Expression h _ => get_lookup_name h
  | _ => get_name e
  end.

Definition get_leaves (e : expr) : list expr :=
  match e with Expression _ ls => ls | _ => [] end.

(** ** Results of a builtin, and the collaborators of this module *)

Record message : Type :=
  Message { msg_symbol : string; msg_tag : string; msg_args : list expr }.

(** What an [apply] method hands back: a value, or [None], on which the
    evaluator keeps the call as it stands. *)
Inductive result : Type :=
| Value (e : expr)
| Unevaluated (reported : list message).

(** [evaluation.message(symbol, tag, *args)] reports and returns [None]. *)
Definition evaluation_message (symbol tag : string) (args : list expr)
  : result :=
  Unevaluated [Message symbol tag args].

(** The definitions store, as far as this module reads it. *)
Record Definitions : Type := {
  (** [definitions.get_attributes(name)] *)
  get_attributes : string → list string;
  (** [definitions.get_value(name, pos, pattern, evaluation)]: the
      replacement given by the first rule of [name] at [pos] that applies to
      [pattern], if there is one *)
  get_value : string → string → expr → option expr
}.

(** The evaluation an [apply] method is run in. *)
Record Evaluation : Type := {
  definitions : Definitions;
  (** [e.evaluate(evaluation)] *)
  evaluate : expr → expr;
  (** [e.get_float_value(n_evaluation=evaluation)] *)
  get_float_value : expr → option Q
}.

Definition has_attribute (a : string) (attributes : list string) : bool :=
  bool_decide (a ∈ attributes).

(** [head.get_attributes(definitions)]: those of the symbol, none for a head
    that is no symbol. *)
Definition head_attributes (defs : Definitions) (head : expr) : list string :=
  match head with
  | Symbol name => get_attributes defs name
  | _ => []
  end.

(** Python's [range(a, b)]. *)
Definition range (a b : nat) : list nat := seq a (b - a).

(** ** [N] *)

Section N.
(** [Number.round(d)], of the number classes: the number at [d] digits,
    at machine precision for [d = None]. *)
Variable round_number : expr → option Q → expr.
Variable evaluation : Evaluation.

(** Lines 136-141: the digits asked for; [None] on the outside is the
    failure that [precbd] reports, [Some None] is machine precision. *)
Definition requested_digits (prec : expr) : option (option Q) :=
  if String.eqb (get_name prec) "System`MachinePrecision" then Some None
  else match get_float_value evaluation prec with
       | None => None
       | Some d => Some (Some d)
       end.

(** Lines 153-162: the value a rule in [NValues] gives to [N[expr, prec]]. *)
Definition nvalue (e prec : expr) : option expr :=
  let name := get_lookup_name e in
  if negb (String.eqb name "") then
    let nexpr := N_request e prec in
    match get_value (definitions evaluation) name "System`NValues" nexpr with
    | Some result =>
        Some (if negb (same result nexpr)
              then evaluate evaluation (N_request result prec)
              else result)
    | None => None
    end
  else None.

(** Lines 167-178: the positions of the leaves that are converted. *)
Definition eval_range (attributes : list string) (leaves : list expr)
  : list nat :=
  if has_attribute "System`NHoldAll" attributes then []
  else if has_attribute "System`NHoldFirst" attributes
       then range 1 (length leaves)
  else if has_attribute "System`NHoldRest" attributes
       then (if (0 <? length leaves)%nat then [0%nat] else [])
  else range 0 (length leaves).

(** Lines 181-183: [leaves[index] = N[leaves[index], prec].evaluate()]. *)
Definition convert_leaf (prec : expr) (leaves : list expr) (index : nat)
  : list expr :=
  match leaves !! index with
  | Some leaf => <[index := evaluate evaluation (N_request leaf prec)]> leaves
  | None => leaves
  end.

(** Lines 148-184, what is done to an expression that is no list. *)
Definition numericize_other (d : option Q) (prec e : expr) : expr :=
  match e with
  | MachineReal _ => e
  | _ =>
    if is_Number e then round_number e d
    else
      match nvalue e prec with
      | Some result => result
      | None =>
          match e with
          | Expression head leaves =>
              let attributes :=
                head_attributes (definitions evaluation) head in
              let head' := evaluate evaluation (N_request head prec) in
              Expression head'
                (fold_left (convert_leaf prec)
                           (eval_range attributes leaves) leaves)
          | _ => e
          end
      end
  end.

Definition threads (head : expr) : bool :=
  bool_decide (get_name head ∈ ["System`List"; "System`Rule"]).

(** Lines 143-184: the body of [apply_other] once [prec] is known to be
    good. The calls of [apply_other] on the leaves of a [List] or [Rule]
    pass the same [prec], whose test has been passed by then. *)
Fixpoint numericize (d : option Q) (prec e : expr) {struct e} : expr :=
  match e with
  | Expression head leaves =>
      if threads head
      then Expression head (map (numericize d prec) leaves)
      else numericize_other d prec e
  | _ => numericize_other d prec e
  end.

(** [N[expr_, prec_]] *)
Definition apply_other (e prec : expr) : result :=
  match requested_digits prec with
  | None => evaluation_message "N" "precbd" [prec]
  | Some d => Value (numericize d prec e)
  end.
End N.

(** ** Numbers *)

Definition Qltb (a b : Q) : bool := negb (Qle_bool b a).

(** [dps(machine_precision)], the [18.] of [N[MachinePrecision]]. *)
Definition machine_digits : Z := 18.

(** Modelled from the spec: [Real(value, p)], from [mathics.core.expression],
    builds a machine real when no precision is given and an
    arbitrary-precision real otherwise. The precision of the latter is
    kept the way the data model of the specification gives it, in decimal
    digits; the code keeps sympy's binary precision and converts with [dps]
    and [prec]. *)
Definition Real (value : Q) (p : option Z) : expr :=
  match p with
  | None => MachineReal value
  | Some digits => PrecisionReal value digits
  end.

(** Modelled from the spec: [dps(e.get_precision())], [None] for an
    expression that is exact. Section 4.2: for a complex number it is taken
    from the part that is inexact. [is_inexact] is whether there is one. *)
Fixpoint get_precision (e : expr) : option Z :=
  match e with
  | MachineReal _ => Some machine_digits
  | PrecisionReal _ digits => Some digits
  | Complex re im =>
      match get_precision re with
      | Some p => Some p
      | None => get_precision im
      end
  | _ => None
  end.

Definition is_inexact (e : expr) : bool :=
  match get_precision e with Some _ => true | None => false end.

(** Modelled from the spec: [is_machine_precision], the test behind
    [MachineNumberQ], is defined outside this module. A machine real is a
    machine number,
    and so is a complex number with a part that is one (the docstring has
    [Precision[0.5]], [Precision[0.0]] and [Precision[0.4 + 2.4 I]] all give
    [MachinePrecision]). *)
Fixpoint MachineNumberQ (e : expr) : bool :=
  match e with
  | MachineReal _ => true
  | Complex re im => MachineNumberQ re || MachineNumberQ im
  | _ => false
  end.

(** Modelled from the spec: the value of a real number, [to_python] of
    [Integer], [Rational] and [Real]. *)
Definition to_python (e : expr) : option Q :=
  match e with
  | Integer v => Some (inject_Z v)
  | Rational q => Some q
  | MachineReal v => Some v
  | PrecisionReal v _ => Some v
  | _ => None
  end.

(** Modelled from the spec: [e.to_sympy().is_zero] on numbers. *)
Fixpoint is_zero (e : expr) : bool :=
  match e with
  | Complex re im => is_zero re && is_zero im
  | _ => match to_python e with
         | Some v => Qeq_bool v 0
         | None => false
         end
  end.

(** ** [Precision] *)

(** [Precision[z_]], lines 247-255. *)
Definition Precision_apply (z : expr) : expr :=
  if negb (is_inexact z) then Symbol "System`Infinity"
  else if is_zero z then Real 0 None
  else match get_precision z with
       | Some digits => Real (inject_Z digits) None
       | None => Symbol "System`Infinity"
       end.

(** The builtin: the rule [Precision[z_?MachineNumberQ]] of lines 243-245 is
    the more specific one and is tried before [Precision[z_]]. *)
Definition Precision (z : expr) : expr :=
  if MachineNumberQ z then Symbol "System`MachinePrecision"
  else Precision_apply z.

(** ** [Round] *)

(** Modelled from the spec: the sympy numbers that [to_sympy] makes of the
    real numbers, with the arithmetic of sympy that [round] uses. *)
Inductive sympy_number : Type :=
| SInteger (z : Z)
| SRational (q : Q)
| SFloat (x : Q) (p : option Z).

Definition sympy_value (x : sympy_number) : Q :=
  match x with
  | SInteger z => inject_Z z
  | SRational q => q
  | SFloat v _ => v
  end.


(** [sympy.Rational] is kept reduced, and is an [Integer] when its
    denominator is one. *)
Definition sympy_Rational (q : Q) : sympy_number :=
  let r := Qred q in
  if Pos.eqb (Qden r) 1 then SInteger (Qnum r) else SRational r.

(** The binary floats of sympy, mpmath's [mpf]: every operation gives the
    exact result rounded to the bits of its precision, to the nearest
    float and at a tie to the one of even mantissa; the exponent has no
    bound. [round_half_even] is a quotient of positive integers rounded so
    to an integer. *)
Definition round_half_even (num den : Z) : Z :=
  let q := num / den in
  let r := num mod den in
  if 2 * r <? den then q
  else if den <? 2 * r then q + 1
  else if Z.even q then q else q + 1.

(** [a / d], for positive [a] and [d], rounded to [bits] bits: with [s] so
    that [a / d * 2 ^ s] has [bits] bits before the point, the result is
    that number rounded to an integer, over [2 ^ s]. *)
Definition fl_pos (bits a d : Z) : Q :=
  let s0 := bits + Z.log2 d - Z.log2 a in
  let s := if d * 2 ^ Z.max (- s0) 0 * 2 ^ bits <=? a * 2 ^ Z.max s0 0
           then s0 - 1 else s0 in
  let m := round_half_even (a * 2 ^ Z.max s 0) (d * 2 ^ Z.max (- s) 0) in
  (m * 2 ^ Z.max (- s) 0) # Z.to_pos (2 ^ Z.max s 0).

Definition fl (bits : Z) (q : Q) : Q :=
  Qred match Qnum q with
       | 0 => 0
       | Zpos a => fl_pos bits (Zpos a) (Zpos (Qden q))
       | Zneg a => - fl_pos bits (Zpos a) (Zpos (Qden q))
       end.

(** mpmath's [dps_to_prec]: the bits of a [Float] of so many digits. *)
Definition dps_to_prec (digits : Z) : Z :=
  Z.max 1 (Qfloor (inject_Z (digits + 1)
                   * (33219280948873626 # 10000000000000000) + (1 # 2))).

(** The bits of a [Float]: 53 for the one of a machine real. *)
Definition float_bits (p : option Z) : Z :=
  match p with
  | None => 53
  | Some digits => dps_to_prec digits
  end.

(** [x._as_mpf_op(prec)], the operand of an operation of a [Float] of
    [prec] bits: a [Float] as it is, the precision raised to its own; an
    [Integer] or [Rational] rounded to [prec] bits. *)
Definition as_mpf_op (prec : Z) (x : sympy_number) : Q * Z :=
  match x with
  | SFloat v p => (v, Z.max prec (float_bits p))
  | _ => (fl prec (sympy_value x), prec)
  end.

(** [Float.__mul__] and [Float.__truediv__]: the value and the bits of the
    product and the quotient of a [Float] [v] of [prec] bits and [x]. *)
Definition Float_mul (v : Q) (prec : Z) (x : sympy_number) : Q * Z :=
  let '(rhs, prec) := as_mpf_op prec x in (fl prec (v * rhs), prec).

Definition Float_div (v : Q) (prec : Z) (x : sympy_number) : Q * Z :=
  let '(rhs, prec) := as_mpf_op prec x in (fl prec (v / rhs), prec).

(** [n * k] for an [Integer] [n]. A product with a [Float] is a [Float]
    unless it is zero: [Float._new] gives the exact [S.Zero] then, which is
    the [Round[0.04, 0.1] = 0] of the docstring. *)
Definition sympy_Integer_mul (n : Z) (k : sympy_number) : sympy_number :=
  match k with
  | SInteger z => SInteger (n * z)
  | SRational q => sympy_Rational (inject_Z n * q)
  | SFloat v p =>
      let product := fst (Float_mul v (float_bits p) (SInteger n)) in
      if Qeq_bool product 0 then SInteger 0 else SFloat product p
  end.

(** [sympy.Integer(x)] of a float cuts the fraction off. *)
Definition sympy_Integer (x : Q) : Z := Z.quot (Qnum x) (Zpos (Qden x)).

(** Line 259, [(1. * value / k).as_real_imag()[0]] for real numbers: the
    float [1.] has 53 bits. *)
Definition float_quotient (value k : sympy_number) : Q * Z :=
  let '(n, prec) := Float_mul 1 53 value in
  Float_div n prec k.

(** Lines 260-263: [n + 0.5] and [n - 0.5] are sums of floats. *)
Definition round_quotient (n : Q) (prec : Z) : Z :=
  if Qle_bool 0 n then sympy_Integer (fl prec (n + (1 # 2)))
  else sympy_Integer (fl prec (n - (1 # 2))).

(** [round(value, k)], lines 258-264. *)
Definition round (value k : sympy_number) : sympy_number :=
  let '(n, prec) := float_quotient value k in
  let n := round_quotient n prec in
  sympy_Integer_mul n k.

Definition to_sympy (e : expr) : option sympy_number :=
  match e with
  | Integer v => Some (SInteger v)
  | Rational q => Some (SRational q)
  | MachineReal v => Some (SFloat v None)
  | PrecisionReal v digits => Some (SFloat v (Some digits))
  | _ => None
  end.

Definition from_sympy (x : sympy_number) : expr :=
  match x with
  | SInteger z => Integer z
  | SRational q => Rational q
  | SFloat v p => Real v p
  end.

(** [Round[expr_?NumericQ, k_?NumericQ]], lines 321-323, on the real
    numbers. Sympy's complex and symbolic values and its division by zero
    are not modelled: [None] stands for an operand that is no integer,
    rational or real, and for a [k] that is zero. *)
Definition Round_apply (e k : expr) : option expr :=
  match to_sympy e, to_sympy k with
  | Some value, Some step =>
      if Qeq_bool (sympy_value step) 0 then None
      else Some (from_sympy (round value step))
  | _, _ => None
  end.

(** ** [Chop] *)

(** [10.0 ** (-10.0)] *)
Definition default_delta : Q := 1 # 10000000000.

Definition within (delta v : Q) : bool := Qltb (- delta) v && Qltb v delta.

(** A part of a complex number, lines 332-335. *)
Definition chop_part (delta : Q) (part : expr) : expr :=
  match to_python part with
  | Some v => if within delta v then Integer 0 else part
  | None => part
  end.

(** [chop(expr, delta)], lines 326-340. The calls on the head and on the
    leaves in lines 338-339 give no [delta], so that they run with the
    default. *)
Fixpoint chop (delta : Q) (e : expr) {struct e} : expr :=
  match e with
  | MachineReal v | PrecisionReal v _ =>
      if within delta v then Integer 0 else e
  | Complex re im => Complex (chop_part delta re) (chop_part delta im)
  | Expression head leaves =>
      Expression (chop default_delta head) (map (chop default_delta) leaves)
  | _ => e
  end.

(** What the specification describes: the same tolerance all the way
    down. *)
Fixpoint chop_spec (delta : Q) (e : expr) {struct e} : expr :=
  match e with
  | MachineReal v | PrecisionReal v _ =>
      if within delta v then Integer 0 else e
  | Complex re im => Complex (chop_part delta re) (chop_part delta im)
  | Expression head leaves =>
      Expression (chop_spec delta head) (map (chop_spec delta) leaves)
  | _ => e
  end.

(** [Chop[expr_, delta_:(10^-10)]], lines 370-377. *)
Definition Chop_apply (evaluation : Evaluation) (e delta : expr) : result :=
  match to_python (evaluate evaluation delta) with
  | Some d =>
      if Qltb d 0 then evaluation_message "Chop" "tolnn" []
      else Value (chop d e)
  | None => evaluation_message "Chop" "tolnn" []
  end.

(** ** [NumericQ] *)

(** Modelled from the spec: [is_numeric] of the atoms, which is defined in
    [mathics.core.expression], outside this module. Section 4.6: a
    number is numeric, and of the other atoms only a symbol that is classed
    as numeric; those are the built-in constants. [NumericQ[Sqrt[Pi]]] is
    [True] in the docstring (lines 389-390), which needs [Pi] among them. *)
Definition numeric_constants : list string :=
  ["System`Pi"; "System`E"; "System`EulerGamma"; "System`GoldenRatio";
   "System`MachinePrecision"; "System`Catalan"].

Definition is_numeric (e : expr) : bool :=
  match e with
  | Symbol name => bool_decide (name ∈ numeric_constants)
  | _ => is_Number e
  end.

(** The local [test] of [NumericQ.apply], lines 398-405. *)
Fixpoint test (defs : Definitions) (e : expr) {struct e} : bool :=
  match e with
  | Expression head leaves =>
      let attr := get_attributes defs (get_name head) in
      has_attribute "System`NumericFunction" attr
      && forallb (test defs) leaves
  | _ => is_numeric e
  end.

(** [NumericQ[expr_]] *)
Definition NumericQ_apply (evaluation : Evaluation) (e : expr) : result :=
  Value (if test (definitions evaluation) e
         then Symbol "System`True" else Symbol "System`False").

(** ** [IntegerDigits] *)

Fixpoint digits_loop (fuel : nat) (x base : Z) (acc : list Z) : list Z :=
  match fuel with
  | O => acc
  | S fuel' =>
      if x <? base then x :: acc
      else digits_loop fuel' (x / base) base (x mod base :: acc)
  end.

(** Modelled from the spec: [convert_int_to_digit_list] is imported from
    [mathics.core.numbers]. By the docstring of
    [IntegerDigits] it gives the digits of [n] in the base, the most
    significant first, without the sign, and [[0]] for zero. *)
Definition convert_int_to_digit_list (x base : Z) : list Z :=
  if x =? 0 then [0]
  else digits_loop (Z.to_nat (Z.abs x)) (Z.abs x) base [].

(** Python's [l[start:]]. *)
Definition slice_from {A : Type} (start : Z) (l : list A) : list A :=
  let len := Z.of_nat (length l) in
  let first := if start <? 0 then Z.max (len + start) 0
               else Z.min start len in
  drop (Z.to_nat first) l.

(** [IntegerDigits[n_, base_]], lines 492-517; [nr_elements] is the keyword
    argument. *)
Definition IntegerDigits_apply (n base : expr) (nr_elements : option Z)
  : result :=
  match n with
  | Integer n_value =>
      match base with
      | Integer base_value =>
          if 1 <? base_value then
            match nr_elements with
            | Some 0 => Value (List_ [])
            | _ =>
                let digits := convert_int_to_digit_list n_value base_value in
                let digits :=
                  match nr_elements with
                  | Some nr =>
                      if Z.of_nat (length digits) >=? nr
                      then slice_from (- nr) digits
                      else replicate
                             (Z.to_nat (nr - Z.of_nat (length digits))) 0
                           ++ digits
                  | None => digits
                  end in
                Value (List_ (map Integer digits))
            end
          else evaluation_message "IntegerDigits" "ibase" [base]
      | _ => evaluation_message "IntegerDigits" "ibase" [base]
      end
  | _ => evaluation_message "IntegerDigits" "int"
           [Expression (Symbol "System`IntegerDigits") [n; base]]
  end.

(** [IntegerDigits[n_, base_, length_]], lines 483-490. *)
Definition IntegerDigits_apply_len (n base len : expr) : result :=
  match len with
  | Integer l =>
      if l >=? 0 then IntegerDigits_apply n base (Some l)
      else evaluation_message "IntegerDigits" "intnn" []
  | _ => evaluation_message "IntegerDigits" "intnn" []
  end.

(** A digit of a base. *)
Definition is_digit (base d : Z) : Prop := 0 ≤ d < base.

(** The number that a list of digits writes in a base. *)
Definition digits_value (base : Z) (digits : list Z) : Z :=
  fold_left (fun acc d => acc * base + d) digits 0.

(** ** [Hash] *)

Inductive hash_function : Type :=
| adler32 | crc32 | md5 | sha1 | sha224 | sha256 | sha384 | sha512.

Definition _supported_hashes : gmap string hash_function :=
  list_to_map
    [("Adler32", adler32); ("CRC32", crc32); ("MD5", md5); ("SHA", sha1);
     ("SHA224", sha224); ("SHA256", sha256); ("SHA384", sha384);
     ("SHA512", sha512)].

Definition supported_names : list string :=
  ["Adler32"; "CRC32"; "MD5"; "SHA"; "SHA224"; "SHA256"; "SHA384"; "SHA512"].

Section Hash.
(** [int(h.hexdigest(), 16)] of the hash object [h] of a function, after
    the bytes were given to [h.update]. *)
Variable hexdigest : hash_function → list Byte.byte → Z.

(** [Hash.compute], lines 579-586; [user_hash] is given as the chunks of
    bytes that it feeds to [update]. *)
Definition compute (user_hash : list (list Byte.byte))
                   (py_hashtype : string) : result :=
  match _supported_hashes !! py_hashtype with
  | None => Unevaluated []
  | Some hash_func =>
      Value (Integer (hexdigest hash_func (concat user_hash)))
  end.
End Hash.

(** ** The evaluator around [N] *)

(** Modelled from the spec: [Number.round], of [mathics.core.expression].
    Section 4.3, step 3: a number other than a machine real becomes one of
    the precision asked for, and the digits of an arbitrary-precision real
    are not raised. *)
Fixpoint round_model (e : expr) (d : option Q) : expr :=
  match e with
  | Integer v => Real (inject_Z v) (option_map Qfloor d)
  | Rational q => Real q (option_map Qfloor d)
  | PrecisionReal v digits =>
      Real v (option_map (fun d' => Z.min digits (Qfloor d')) d)
  | Complex re im => Complex (round_model re d) (round_model im d)
  | _ => e
  end.

(** Modelled from the spec: the rewriting engine, which is outside this
    module, as far as requests to [N] go (sections 5 and 6). The parts of an
    expression are evaluated first; [N[e, prec]] is then handed to
    [apply_other], and what comes back is evaluated again unless it is the
    request itself. [fuel] bounds the depth. *)
Fixpoint engine_evaluate (defs : Definitions) (fuel : nat) (e : expr)
  {struct fuel} : expr :=
  match fuel with
  | O => e
  | S fuel' =>
      let inner := {| definitions := defs;
                      evaluate := engine_evaluate defs fuel';
                      get_float_value := to_python |} in
      match e with
      | Expression head leaves =>
          let e' := Expression (engine_evaluate defs fuel' head)
                               (map (engine_evaluate defs fuel') leaves) in
          match e' with
          | Expression (Symbol name) [x; prec] =>
              if String.eqb name "System`N" then
                match apply_other round_model inner x prec with
                | Value r =>
                    if same r e' then e' else engine_evaluate defs fuel' r
                | Unevaluated _ => e'
                end
              else e'
          | _ => e'
          end
      | _ => e
      end
  end.

Definition engine (defs : Definitions) (fuel : nat) : Evaluation :=
  {| definitions := defs;
     evaluate := engine_evaluate defs fuel;
     get_float_value := to_python |}.

(** A session without definitions. *)
Definition no_definitions : Definitions :=
  {| get_attributes := fun _ => []; get_value := fun _ _ _ => None |}.

Definition MachinePrecision : expr := Symbol "System`MachinePrecision".

(** Sessions for the examples. After [N[a, p_] := N[a, p]] the rule of [a]
    answers a request with the request. *)
Definition defs_self : Definitions :=
  {| get_attributes := fun _ => [];
     get_value := fun name pos nexpr =>
       if String.eqb name "Global`a" && String.eqb pos "System`NValues"
       then match nexpr with
            | Expression _ [Symbol "Global`a"; _] => Some nexpr
            | _ => None
            end
       else None |}.

(** After [N[a] = 10.9], as in the docstring of [N]. *)
Definition defs_a : Definitions :=
  {| get_attributes := fun _ => [];
     get_value := fun name pos nexpr =>
       if String.eqb name "Global`a" && String.eqb pos "System`NValues"
          && same nexpr (N_request (Symbol "Global`a") MachinePrecision)
       then Some (MachineReal (109 # 10))
       else None |}.


(** After [SetAttributes[f, NHoldRest]]. *)
Definition defs_hold : Definitions :=
  {| get_attributes := fun name =>
       if String.eqb name "Global`f" then ["System`NHoldRest"] else [];
     get_value := fun _ _ _ => None |}.

(** A digest for the examples: the number of bytes. Which digest is taken
    has no part in what is shown there. *)
Definition count_digest (_ : hash_function) (bytes : list Byte.byte) : Z :=
  Z.of_nat (length bytes).




(** ** Further parts of the module *)

(** No inexact real and no complex number at any place of an expression. *)
Fixpoint inexact_free (e : expr) {struct e} : bool :=
  match e with
  | MachineReal _ | PrecisionReal _ _ | Complex _ _ => false
  | Expression head leaves =>
      inexact_free head && forallb inexact_free leaves
  | _ => true
  end.

(** [a] is [e] itself or a leaf of [e] at some depth. *)
Inductive argument_of (a : expr) : expr → Prop :=
| argument_here : argument_of a a
| argument_below (head : expr) (leaves : list expr) (leaf : expr) :
    leaf ∈ leaves → argument_of a leaf →
    argument_of a (Expression head leaves).

(** [Internal`RealValuedNumberQ], lines 431-436: the rules for an [x] with
    the head [Real], [Integer] or [Rational] come before the rule for any
    [x]. *)
Definition RealValuedNumberQ (x : expr) : expr :=
  if bool_decide (get_head_name x
                  ∈ ["System`Real"; "System`Integer"; "System`Rational"])
  then Symbol "System`True"
  else Symbol "System`False".

(** [_ZLibHash], lines 520-529. *)
Record ZLibHash : Type :=
  { _bytes : list Byte.byte; _fn : list Byte.byte → Z }.

Definition ZLibHash_init (fn : list Byte.byte → Z) : ZLibHash :=
  {| _bytes := []; _fn := fn |}.

Definition ZLibHash_update (h : ZLibHash) (bytes : list Byte.byte)
  : ZLibHash :=
  {| _bytes := _bytes h ++ bytes; _fn := _fn h |}.

(** Python's [format(v, 'x')]: lower case digits, a minus sign for a
    negative number. *)
Definition format_x (v : Z) : string :=
  NilZero.string_of_int (Z.to_hex_int v).

Definition ZLibHash_hexdigest (h : ZLibHash) : string :=
  format_x (_fn h (_bytes h)).

(** Python's [int(s, 16)] on a string of lower case digits with or without
    a sign, which is all that [hexdigest] gives; [None] is the [ValueError]
    on another string. *)
Definition int_16 (s : string) : option Z :=
  option_map Z.of_hex_int (NilZero.int_of_string s).

(** Lines 584-586 of [Hash.compute] for a zlib hash. *)
Definition compute_zlib (fn : list Byte.byte → Z)
                        (user_hash : list (list Byte.byte)) : option expr :=
  let h := fold_left ZLibHash_update user_hash (ZLibHash_init fn) in
  option_map Integer (int_16 (ZLibHash_hexdigest h)).

(** A session in which [Plus] has its attribute [NumericFunction]. *)
Definition defs_plus : Definitions :=
  {| get_attributes := fun name =>
       if String.eqb name "System`Plus" then ["System`NumericFunction"]
       else [];
     get_value := fun _ _ _ => None |}.

(** * Properties *)

(** ** Identity of expressions *)

Lemma Q_same_eq (a b : Q) : Q_same a b = true ↔ a = b.
Proof.
  destruct a as [an ad], b as [bn bd]; unfold Q_same; simpl.
  rewrite andb_true_iff, Z.eqb_eq, Pos.eqb_eq.
  split; [intros [-> ->]; reflexivity | intros [= -> ->]; auto].
Qed.

Lemma same_eq (a b : expr) : same a b = true ↔ a = b.
Proof.
  revert b; induction a as [v|v|v|v p|re im IHre IHim|n|s|h ls IHh IHls]
    using expr_leaves_ind; intros [w|w|w|w q|re' im'|m|t|h' ls']; simpl;
    try (split; [discriminate | intros [=]]).
  - rewrite Z.eqb_eq. split; [intros -> | intros [= ->]]; reflexivity.
  - rewrite Q_same_eq. split; [intros -> | intros [= ->]]; reflexivity.
  - rewrite Q_same_eq. split; [intros -> | intros [= ->]]; reflexivity.
  - rewrite andb_true_iff, Q_same_eq, Z.eqb_eq.
    split; [intros [-> ->] | intros [= -> ->]]; auto.
  - rewrite andb_true_iff, IHre, IHim.
    split; [intros [-> ->] | intros [= -> ->]]; auto.
  - rewrite String.eqb_eq. split; [intros -> | intros [= ->]]; reflexivity.
  - rewrite String.eqb_eq. split; [intros -> | intros [= ->]]; reflexivity.
  - rewrite andb_true_iff, IHh.
    assert (Hls : ∀ l',
      (fix same_list (l l' : list expr) {struct l} : bool :=
         match l, l' with
         | [], [] => true
         | x :: t, y :: t' => same x y && same_list t t'
         | _, _ => false
         end) ls l' = true ↔ ls = l').
    { induction IHls as [|x t Hx _ IHt]; intros [|y t'];
        try (split; [discriminate | intros [=]]); [tauto|].
      rewrite andb_true_iff, Hx, IHt.
      split; [intros [-> ->] | intros [= -> ->]]; auto. }
    rewrite Hls. split; [intros [-> ->] | intros [= -> ->]]; auto.
Qed.

Lemma same_refl (a : expr) : same a a = true.
Proof. apply same_eq; reflexivity. Qed.

Lemma same_neq (a b : expr) : a ≠ b → same a b = false.
Proof.
  intros Hne. destruct (same a b) eqn:E; [|reflexivity].
  apply same_eq in E. contradiction.
Qed.

(** ** [N] *)

Section NProperties.
Variable round_number : expr → option Q → expr.
Variable ev : Evaluation.

Abbreviation numericize_ev := (numericize round_number ev).
Abbreviation numericize_other_ev := (numericize_other round_number ev).
Abbreviation apply_other_ev := (apply_other round_number ev).
Abbreviation convert prec := (fun leaf => evaluate ev (N_request leaf prec)).

Lemma threads_false (head : expr) :
  get_name head ∉ ["System`List"; "System`Rule"] → threads head = false.
Proof. intros H. unfold threads. by apply bool_decide_eq_false. Qed.

Lemma numericize_no_thread (d : option Q) (prec e : expr) :
  get_head_name e ∉ ["System`List"; "System`Rule"] →
  numericize_ev d prec e = numericize_other_ev d prec e.
Proof.
  destruct e; try reflexivity.
  unfold get_head_name; simpl. intros H.
  by rewrite (threads_false _ H).
Qed.

Lemma nvalue_none (e prec : expr) :
  get_lookup_name e = ""
  ∨ get_value (definitions ev) (get_lookup_name e) "System`NValues"
              (N_request e prec) = None →
  nvalue ev e prec = None.
Proof.
  unfold nvalue. intros [-> | ->]; [reflexivity|].
  by destruct (negb _).
Qed.

Lemma nvalue_some (e prec r : expr) :
  get_lookup_name e ≠ "" →
  get_value (definitions ev) (get_lookup_name e) "System`NValues"
            (N_request e prec) = Some r →
  nvalue ev e prec
  = Some (if same r (N_request e prec) then r
          else evaluate ev (N_request r prec)).
Proof.
  intros Hname Hget. unfold nvalue.
  destruct (String.eqb_spec (get_lookup_name e) "") as [?|_]; [done|].
  simpl. rewrite Hget. by destruct (same r _).
Qed.

(** The loop of lines 181-183 over a run of positions converts exactly
    the leaves at these positions. *)
Lemma convert_run (prec : expr) (post pre : list expr) :
  fold_left (convert_leaf ev prec) (seq (length pre) (length post))
            (pre ++ post)
  = pre ++ map (convert prec) post.
Proof.
  revert pre. induction post as [|x post IH]; intros pre; [reflexivity|].
  simpl. unfold convert_leaf at 2.
  rewrite lookup_app_r by lia. rewrite Nat.sub_diag. simpl.
  replace (<[length pre:=evaluate ev (N_request x prec)]> (pre ++ x :: post))
    with ((pre ++ [evaluate ev (N_request x prec)]) ++ post).
  - specialize (IH (pre ++ [evaluate ev (N_request x prec)])).
    rewrite length_app in IH. simpl in IH.
    rewrite Nat.add_1_r in IH. rewrite IH.
    by rewrite <- app_assoc.
  - rewrite <- app_assoc. simpl.
    rewrite insert_app_r_alt by lia. by rewrite Nat.sub_diag.
Qed.

Lemma convert_all (prec : expr) (leaves : list expr) :
  fold_left (convert_leaf ev prec) (range 0 (length leaves)) leaves
  = map (convert prec) leaves.
Proof.
  unfold range. rewrite Nat.sub_0_r. apply (convert_run prec leaves []).
Qed.

Lemma convert_rest (prec : expr) (leaves : list expr) :
  fold_left (convert_leaf ev prec) (range 1 (length leaves)) leaves
  = take 1 leaves ++ map (convert prec) (drop 1 leaves).
Proof.
  destruct leaves as [|x t]; [reflexivity|].
  unfold range. simpl length. rewrite Nat.sub_succ, Nat.sub_0_r.
  apply (convert_run prec t [x]).
Qed.

Lemma convert_first (prec : expr) (leaves : list expr) :
  fold_left (convert_leaf ev prec)
            (if (0 <? length leaves)%nat then [0%nat] else []) leaves
  = map (convert prec) (take 1 leaves) ++ drop 1 leaves.
Proof. by destruct leaves. Qed.

(** C7. A precision that is not [MachinePrecision] and has no float value
    makes [N] report [precbd] with that precision and return nothing: the
    call [N[expr, prec]] stays as it is, whatever [expr] is. *)
Theorem N_bad_precision (e prec : expr) :
  get_name prec ≠ "System`MachinePrecision" →
  get_float_value ev prec = None →
  apply_other_ev e prec = Unevaluated [Message "N" "precbd" [prec]].
Proof.
  intros Hname Hfloat. unfold apply_other, requested_digits.
  destruct (String.eqb_spec (get_name prec) "System`MachinePrecision")
    as [?|_]; [done|].
  by rewrite Hfloat.
Qed.

(** C1 (amended). For an expression that is no number and no list or rule,
    with a lookup name, at a good precision: [N] asks the [NValues] of that
    name for the value of the request [N[expr, prec]]. A replacement that
    differs from the request is numericized in turn, as
    [N[replacement, prec]] evaluated, and that is the result. A replacement
    identical to the request is itself the result, that is the request is
    handed back with no further evaluation; the attributes and leaves are
    not looked at then. *)
Theorem N_override (e prec r : expr) (d : option Q) :
  requested_digits ev prec = Some d →
  is_Number e = false →
  get_head_name e ∉ ["System`List"; "System`Rule"] →
  get_lookup_name e ≠ "" →
  get_value (definitions ev) (get_lookup_name e) "System`NValues"
            (N_request e prec) = Some r →
  (r ≠ N_request e prec →
   apply_other_ev e prec = Value (evaluate ev (N_request r prec)))
  ∧ (r = N_request e prec →
     apply_other_ev e prec = Value (N_request e prec)).
Proof.
  intros Hd Hnum Hhead Hname Hget.
  assert (Hres : apply_other_ev e prec
            = Value (if same r (N_request e prec) then r
                     else evaluate ev (N_request r prec))).
  { unfold apply_other. rewrite Hd. f_equal.
    rewrite numericize_no_thread by done.
    unfold numericize_other.
    rewrite (nvalue_some _ _ _ Hname Hget), Hnum.
    by destruct e. }
  split; intros Hr; rewrite Hres.
  - by rewrite same_neq.
  - subst r. by rewrite same_refl.
Qed.

(** C2. For a compound expression whose head is neither [List] nor [Rule],
    to which [NValues] gives no value, at a good precision: the result has
    the head [N[head, prec]] evaluated, and its leaves are those of the
    expression with some of them replaced by [N[leaf, prec]] evaluated:
    none under [NHoldAll]; else all but the first under [NHoldFirst]; else
    only the first, if there is one, under [NHoldRest]; else all. The
    other leaves are the ones of the expression. *)
Theorem N_hold_attributes (head prec : expr) (leaves : list expr)
                          (d : option Q) :
  let e := Expression head leaves in
  let attributes := head_attributes (definitions ev) head in
  requested_digits ev prec = Some d →
  get_name head ∉ ["System`List"; "System`Rule"] →
  (get_lookup_name e = ""
   ∨ get_value (definitions ev) (get_lookup_name e) "System`NValues"
               (N_request e prec) = None) →
  ∃ leaves',
    apply_other_ev e prec
    = Value (Expression (evaluate ev (N_request head prec)) leaves')
    ∧ ("System`NHoldAll" ∈ attributes → leaves' = leaves)
    ∧ ("System`NHoldAll" ∉ attributes →
       "System`NHoldFirst" ∈ attributes →
       leaves' = take 1 leaves ++ map (convert prec) (drop 1 leaves))
    ∧ ("System`NHoldAll" ∉ attributes →
       "System`NHoldFirst" ∉ attributes →
       "System`NHoldRest" ∈ attributes →
       leaves' = map (convert prec) (take 1 leaves) ++ drop 1 leaves)
    ∧ ("System`NHoldAll" ∉ attributes →
       "System`NHoldFirst" ∉ attributes →
       "System`NHoldRest" ∉ attributes →
       leaves' = map (convert prec) leaves).
Proof.
  intros e attributes Hd Hhead Hnone.
  exists (fold_left (convert_leaf ev prec)
                    (eval_range attributes leaves) leaves).
  split.
  - unfold apply_other. rewrite Hd. f_equal.
    rewrite numericize_no_thread by exact Hhead.
    unfold numericize_other. by rewrite (nvalue_none e prec Hnone).
  - unfold eval_range, has_attribute.
    repeat split; intros;
      repeat (first [ rewrite bool_decide_eq_true_2 by done
                    | rewrite bool_decide_eq_false_2 by done ]).
    + reflexivity.
    + apply convert_rest.
    + apply convert_first.
    + apply convert_all.
Qed.

End NProperties.

Ltac decide_by_computation :=
  lazymatch goal with
  | |- ?P => apply (@bool_decide_unpack P _); vm_compute; exact I
  end.

(** [N[x, "abc"]]: the string has no float value. *)
Lemma N_bad_precision_witness :
  apply_other round_model (engine no_definitions 3)
              (Symbol "Global`x") (String "abc")
  = Unevaluated [Message "N" "precbd" [String "abc"]].
Proof.
  apply N_bad_precision; [decide_by_computation | reflexivity].
Defined.

(** [N[a]] after [N[a] = 10.9] is [10.9]. *)
Lemma N_override_witness :
  apply_other round_model (engine defs_a 3) (Symbol "Global`a")
              MachinePrecision
  = Value (MachineReal (109 # 10)).
Proof.
  destruct (N_override round_model (engine defs_a 3) (Symbol "Global`a")
              MachinePrecision (MachineReal (109 # 10)) None)
    as [Hdiffers _];
    [reflexivity | reflexivity | decide_by_computation
    | decide_by_computation | reflexivity |].
  rewrite Hdiffers; [reflexivity | discriminate].
Defined.

(** After [N[a, p_] := N[a, p]] the rule gives [N[a, MachinePrecision]]
    for that request, and [N] returns the request; where nothing is found,
    as in a session without definitions, [N] returns the symbol [a]. *)
Lemma N_identical_override_counterexample :
  let a := Symbol "Global`a" in
  let request := N_request a MachinePrecision in
  get_value defs_self (get_lookup_name a) "System`NValues" request
  = Some request
  ∧ apply_other round_model (engine defs_self 3) a MachinePrecision
    = Value request
  ∧ apply_other round_model (engine no_definitions 3) a MachinePrecision
    = Value a
  ∧ apply_other round_model (engine defs_self 3) a MachinePrecision
    ≠ apply_other round_model (engine no_definitions 3) a MachinePrecision.
Proof. repeat split; try reflexivity. discriminate. Qed.

(** [N[f[1, 2]]] is [f[1., 2]] when [f] has [NHoldRest]. *)
Lemma N_hold_attributes_witness :
  apply_other round_model (engine defs_hold 3)
              (Expression (Symbol "Global`f") [Integer 1; Integer 2])
              MachinePrecision
  = Value (Expression (Symbol "Global`f") [MachineReal 1; Integer 2]).
Proof.
  destruct (N_hold_attributes round_model (engine defs_hold 3)
              (Symbol "Global`f") MachinePrecision [Integer 1; Integer 2]
              None)
    as (leaves' & Happly & _ & _ & Hrest & _);
    [reflexivity | decide_by_computation | right; reflexivity |].
  rewrite Happly, Hrest; [reflexivity | decide_by_computation ..].
Defined.


(** ** [N] twice *)

















Section NTwice.
Variable defs : Definitions.
Variable prec : expr.
Variable d : option Q.
Hypothesis good_precision :
  ∀ fuel, requested_digits (engine defs fuel) prec = Some d.

Abbreviation numericize_at fuel :=
  (numericize round_model (engine defs fuel) d prec).





End NTwice.



(** The results of the two passes in a session without definitions:
    [N[f[1, {1/3, x}], 20]] is [f[1.`20, {0.333...`20, x}]], and so is [N]
    of that; [N[2.5`30, 20]] is [2.5`20], and so is [N] of that. *)
Lemma N_twice_examples :
  let N_at x := apply_other round_model (engine no_definitions 3) x
                            (Integer 20) in
  let e := Expression (Symbol "Global`f")
             [Integer 1; List_ [Rational (1 # 3); Symbol "Global`x"]] in
  let r := Expression (Symbol "Global`f")
             [PrecisionReal 1 20;
              List_ [PrecisionReal (1 # 3) 20; Symbol "Global`x"]] in
  N_at e = Value r
  ∧ N_at r = Value r
  ∧ N_at (PrecisionReal (5 # 2) 30) = Value (PrecisionReal (5 # 2) 20)
  ∧ N_at (PrecisionReal (5 # 2) 20) = Value (PrecisionReal (5 # 2) 20).
Proof. repeat split. Qed.

(** ** [Round] *)



(** *** The floats *)









(** *** The result *)








Lemma to_sympy_value (e : expr) (x : sympy_number) :
  to_sympy e = Some x → to_python e = Some (sympy_value x).
Proof. destruct e; intros [= <-]; reflexivity. Qed.




(** The floats show: [Round[2 ^ 53 + 1]] is [2 ^ 53], the float of the
    integer; [Round[0.49999999999999994]] is [1], the sum with [0.5] being
    the float [1.]; and the docstring's [Round[10.6]], [Round[-1.4]],
    [Round[0.06, 0.1]] and [Round[0.04, 0.1]]. *)
Lemma Round_float_examples :
  Round_apply (Integer (2 ^ 53 + 1)) (Integer 1) = Some (Integer (2 ^ 53))
  ∧ Round_apply (MachineReal (9007199254740991 # 18014398509481984))
                (Integer 1) = Some (Integer 1)
  ∧ Round_apply (MachineReal (5967269506265907 # 562949953421312))
                (Integer 1) = Some (Integer 11)
  ∧ Round_apply (MachineReal (- 3152519739159347 # 2251799813685248))
                (Integer 1) = Some (Integer (-1))
  ∧ Round_apply (MachineReal (1080863910568919 # 18014398509481984))
                (MachineReal (3602879701896397 # 36028797018963968))
    = Some (MachineReal (3602879701896397 # 36028797018963968))
  ∧ Round_apply (MachineReal (5764607523034235 # 144115188075855872))
                (MachineReal (3602879701896397 # 36028797018963968))
    = Some (Integer 0).
Proof. split_and!; vm_compute; reflexivity. Qed.

(** ** [Chop] *)

Lemma within_bounds (delta v : Q) :
  within delta v = true ↔ (- delta < v)%Q ∧ (v < delta)%Q.
Proof.
  unfold within, Qltb. rewrite andb_true_iff, !negb_true_iff.
  split; intros [H1 H2]; split;
    try (apply Qnot_le_lt; intros H%Qle_bool_iff; congruence);
    try (destruct (Qle_bool _ _) eqn:E; [|reflexivity];
         apply Qle_bool_iff in E; lra).
Qed.

(** On a real leaf [chop] does what is described: zero strictly inside the
    tolerance, the leaf itself from the tolerance on. *)
Lemma chop_real_leaf (delta : Q) (e : expr) (v : Q) :
  is_Real e = true → to_python e = Some v →
  ((- delta < v)%Q ∧ (v < delta)%Q → chop delta e = Integer 0)
  ∧ ((v == delta)%Q ∨ (v == - delta)%Q → chop delta e = e).
Proof.
  intros Hreal Hv.
  assert (Hchop : chop delta e = if within delta v then Integer 0 else e)
    by (destruct e; try discriminate; injection Hv as ->; reflexivity).
  rewrite Hchop. split.
  - intros Hin%within_bounds. by rewrite Hin.
  - intros Hedge. destruct (within delta v) eqn:E; [|reflexivity].
    apply within_bounds in E. destruct Hedge; lra.
Qed.

(** X16. With the default tolerance, which the one-argument [Chop] takes,
    the code and the description agree: the tolerance is the same at every
    depth. *)
Lemma chop_default (e : expr) : chop default_delta e = chop_spec default_delta e.
Proof.
  induction e as [v|v|v|v p|re im _ _|n|s|h ls IHh IHls]
    using expr_leaves_ind; try reflexivity.
  simpl. rewrite IHh. f_equal.
  induction IHls as [|x t Hx _ IHt]; [reflexivity|].
  simpl. by rewrite Hx, IHt.
Qed.

(** C5. [Chop[{0.5}, 1]]: the leaf [0.5] lies inside [(-1, 1)], and the
    description makes it [0]; the code rebuilds the list with the default
    tolerance of lines 338-339 and leaves [0.5] in it. *)
Theorem chop_nested_tolerance :
  let e := List_ [MachineReal (1 # 2)] in
  within 1 (1 # 2) = true
  ∧ chop 1 e = List_ [MachineReal (1 # 2)]
  ∧ chop_spec 1 e = List_ [Integer 0]
  ∧ chop 1 e ≠ chop_spec 1 e.
Proof. repeat split. discriminate. Qed.

(** ** [Precision] *)

(** C6 (amended). An inexact number that is zero and is not a machine number
    has the precision [0.], whatever its digits; [0.] is neither
    [MachinePrecision] nor the precision [n.] of any positive [n]. *)
Theorem Precision_zero (z : expr) :
  is_inexact z = true →
  is_zero z = true →
  MachineNumberQ z = false →
  Precision z = Real 0 None
  ∧ Precision z ≠ Symbol "System`MachinePrecision"
  ∧ ∀ n : Z, 0 < n → Precision z ≠ Real (inject_Z n) None.
Proof.
  intros Hinexact Hzero Hmachine.
  assert (HP : Precision z = Real 0 None).
  { unfold Precision, Precision_apply. by rewrite Hmachine, Hinexact, Hzero. }
  rewrite HP. split_and!; [reflexivity | discriminate |].
  intros n Hn [= Heq]. lia.
Qed.

(** [Precision[0.000000000000000000000000000000000000]] *)
Lemma Precision_zero_witness :
  Precision (PrecisionReal 0 36) = Real 0 None
  ∧ Precision (PrecisionReal 0 36) ≠ Symbol "System`MachinePrecision"
  ∧ ∀ n : Z, 0 < n → Precision (PrecisionReal 0 36) ≠ Real (inject_Z n) None.
Proof. apply Precision_zero; reflexivity. Defined.

(** [Precision[0.0]] is [MachinePrecision], as in the docstring: the machine
    real [0.0] is inexact and zero. *)
Lemma Precision_machine_zero_counterexample :
  is_inexact (MachineReal 0) = true
  ∧ is_zero (MachineReal 0) = true
  ∧ Precision (MachineReal 0) = Symbol "System`MachinePrecision"
  ∧ Precision (MachineReal 0) ≠ Real 0 None.
Proof. repeat split. discriminate. Qed.

(** ** [NumericQ] *)

(** C8 (amended). A compound expression is numeric exactly when its head
    has [NumericFunction] and all its leaves are numeric. A number is
    numeric, a string is not, and a symbol is exactly when it is one of the
    numeric constants. [f[1, 2]] is not numeric for an [f] without
    [NumericFunction]. *)
Theorem NumericQ_test (defs : Definitions) :
  (∀ head leaves,
     test defs (Expression head leaves) = true
     ↔ "System`NumericFunction" ∈ get_attributes defs (get_name head)
       ∧ Forall (fun leaf => test defs leaf = true) leaves)
  ∧ (∀ e, is_Number e = true → test defs e = true)
  ∧ (∀ s, test defs (String s) = false)
  ∧ (∀ name, test defs (Symbol name) = true ↔ name ∈ numeric_constants)
  ∧ (∀ f, "System`NumericFunction" ∉ get_attributes defs f →
          test defs (Expression (Symbol f) [Integer 1; Integer 2]) = false).
Proof.
  split_and!.
  - intros head leaves. simpl. unfold has_attribute.
    rewrite andb_true_iff, bool_decide_eq_true, forallb_forall, Forall_forall.
    split; intros [Hattr Hall]; (split; [done|]); intros x Hx; apply Hall;
      by apply list_elem_of_In.
  - by intros [].
  - reflexivity.
  - intros name. simpl. apply bool_decide_eq_true.
  - intros f Hf. simpl. unfold has_attribute.
    by rewrite bool_decide_eq_false_2.
Qed.

(** The symbol [Pi] is an atom and no number, and it is numeric: the
    [NumericQ[Sqrt[Pi]]] of the docstring rests on it. *)
Lemma NumericQ_constant_counterexample :
  is_atom (Symbol "System`Pi") = true
  ∧ is_Number (Symbol "System`Pi") = false
  ∧ test no_definitions (Symbol "System`Pi") = true.
Proof. repeat split. Qed.

(** ** [Hash] *)

Lemma supported_names_keys :
  supported_names
  = (fst <$> [("Adler32", adler32); ("CRC32", crc32); ("MD5", md5);
              ("SHA", sha1); ("SHA224", sha224); ("SHA256", sha256);
              ("SHA384", sha384); ("SHA512", sha512)]).
Proof. reflexivity. Qed.

(** C9 (amended). For a name that is none of the eight supported ones
    [compute] returns nothing and reports nothing, whatever the expression
    feeds: no digest is made, no message is given, and the call
    [Hash[expr, name]] stays as it is. *)
Theorem Hash_unknown (hexdigest : hash_function → list Byte.byte → Z)
                     (user_hash : list (list Byte.byte)) (name : string) :
  name ∉ supported_names →
  compute hexdigest user_hash name = Unevaluated [].
Proof.
  intros Hname. unfold compute, _supported_hashes.
  rewrite supported_names_keys in Hname.
  by rewrite (not_elem_of_list_to_map_1 _ _ Hname).
Qed.

(** [Hash[{a, b, c}, "xyzstr"]] *)
Lemma Hash_unknown_witness :
  compute count_digest [] "xyzstr" = Unevaluated [].
Proof. apply Hash_unknown. decide_by_computation. Defined.

(** [Hash[{a, b, c}, "xyzstr"]]: the name is not supported, and no message
    is among what is reported, as in the docstring, which shows none. *)
Lemma Hash_unknown_silent_counterexample :
  ("xyzstr" ∉ supported_names)
  ∧ compute count_digest [] "xyzstr" = Unevaluated []
  ∧ ∀ (m : message) (reported : list message),
      compute count_digest [] "xyzstr" ≠ Unevaluated (m :: reported).
Proof.
  split_and!; [decide_by_computation | reflexivity |].
  intros m reported. vm_compute. discriminate.
Qed.

(** ** [IntegerDigits] *)

Section Digits.
Variable base : Z.
Hypothesis base_gt_1 : 1 < base.

Lemma digits_value_acc (l : list Z) (acc : Z) :
  fold_left (fun a d => a * base + d) l acc
  = acc * base ^ Z.of_nat (length l) + digits_value base l.
Proof.
  unfold digits_value. revert acc.
  induction l as [|d l IH]; intros acc; simpl fold_left.
  - change (Z.of_nat (length [])) with 0. rewrite Z.pow_0_r. lia.
  - rewrite IH, (IH (0 * base + d)).
    simpl length. rewrite Nat2Z.inj_succ, Z.pow_succ_r by lia. ring.
Qed.

Lemma digits_value_app (l1 l2 : list Z) :
  digits_value base (l1 ++ l2)
  = digits_value base l1 * base ^ Z.of_nat (length l2) + digits_value base l2.
Proof.
  unfold digits_value at 1. rewrite fold_left_app.
  apply digits_value_acc.
Qed.

Lemma digits_value_bound (l : list Z) :
  Forall (is_digit base) l → 0 ≤ digits_value base l < base ^ Z.of_nat (length l).
Proof.
  induction l as [|d l IH] using rev_ind; intros Hall.
  - simpl. unfold digits_value; simpl. lia.
  - apply Forall_app in Hall as [Hl Hd]. apply List.Forall_inv in Hd.
    specialize (IH Hl). rewrite digits_value_app, length_app. simpl length.
    replace (digits_value base [d]) with d by (unfold digits_value; simpl; lia).
    rewrite Nat2Z.inj_add, Z.pow_add_r, Z.pow_1_r by lia.
    unfold is_digit in Hd. nia.
Qed.

Lemma digits_value_zeros (k : nat) (l : list Z) :
  digits_value base (replicate k 0 ++ l) = digits_value base l.
Proof.
  rewrite digits_value_app.
  assert (Hz : digits_value base (replicate k 0) = 0).
  { induction k as [|k IH]; [reflexivity|].
    change (replicate (S k) 0) with ([0] ++ replicate k 0).
    rewrite digits_value_app, IH. unfold digits_value; simpl. lia. }
  rewrite Hz. lia.
Qed.

(** The loop writes a positive number in the base, given fuel for it. *)
Lemma digits_loop_spec (fuel : nat) (x : Z) (acc : list Z) :
  1 ≤ x ≤ Z.of_nat fuel →
  ∃ ds, digits_loop fuel x base acc = ds ++ acc
        ∧ Forall (is_digit base) ds
        ∧ digits_value base ds = x.
Proof.
  revert x acc. induction fuel as [|fuel IH]; intros x acc Hx; [lia|].
  simpl. destruct (Z.ltb_spec x base) as [Hlt|Hge].
  - exists [x]. split_and!; [reflexivity | | unfold digits_value; simpl; lia].
    apply Forall_singleton. unfold is_digit. lia.
  - assert (Hq : 1 ≤ x / base ≤ Z.of_nat fuel).
    { split; [apply Z.div_le_lower_bound; lia|].
      assert (x / base < x) by (apply Z.div_lt; lia). lia. }
    destruct (IH (x / base) (x mod base :: acc) Hq) as (ds & Hds & Hall & Hval).
    exists (ds ++ [x mod base]). split_and!.
    + rewrite Hds. by rewrite <- app_assoc.
    + apply Forall_app. split; [done|]. apply Forall_singleton.
      unfold is_digit. apply Z.mod_pos_bound. lia.
    + rewrite digits_value_app, Hval. simpl length.
      replace (digits_value base [x mod base]) with (x mod base)
        by (unfold digits_value; simpl; lia).
      rewrite Z.pow_1_r. rewrite (Z.div_mod x base) at 3 by lia. ring.
Qed.

Lemma convert_int_to_digit_list_spec (n : Z) :
  let all := convert_int_to_digit_list n base in
  Forall (is_digit base) all ∧ digits_value base all = Z.abs n.
Proof.
  unfold convert_int_to_digit_list.
  destruct (Z.eqb_spec n 0) as [->|Hn].
  - split; [|reflexivity]. apply Forall_singleton. unfold is_digit. lia.
  - destruct (digits_loop_spec (Z.to_nat (Z.abs n)) (Z.abs n) [])
      as (ds & Hds & Hall & Hval); [lia|].
    simpl. rewrite Hds, app_nil_r. done.
Qed.

Lemma convert_int_to_digit_list_opp (n : Z) :
  convert_int_to_digit_list (- n) base = convert_int_to_digit_list n base.
Proof.
  unfold convert_int_to_digit_list. rewrite Z.abs_opp.
  destruct (Z.eqb_spec n 0), (Z.eqb_spec (- n) 0); try reflexivity; lia.
Qed.

(** Lines 509-515, for a positive number of elements. *)
Lemma sized_digits (all : list Z) (len : Z) :
  0 < len → Forall (is_digit base) all →
  let digits :=
    if Z.of_nat (length all) >=? len then slice_from (- len) all
    else replicate (Z.to_nat (len - Z.of_nat (length all))) 0 ++ all in
  length digits = Z.to_nat len
  ∧ Forall (is_digit base) digits
  ∧ digits_value base digits = digits_value base all mod base ^ len
  ∧ (len ≤ Z.of_nat (length all) →
     digits = drop (length all - Z.to_nat len) all)
  ∧ (Z.of_nat (length all) < len →
     digits = replicate (Z.to_nat len - length all) 0 ++ all).
Proof.
  intros Hlen Hall. simpl.
  destruct (Z.geb_spec (Z.of_nat (length all)) len) as [Hge|Hlt].
  - assert (Hslice : slice_from (- len) all
                     = drop (length all - Z.to_nat len) all).
    { unfold slice_from. destruct (Z.ltb_spec (- len) 0); [|lia].
      f_equal. lia. }
    rewrite Hslice. split_and!.
    + rewrite length_drop. lia.
    + by apply Forall_drop.
    + replace (digits_value base all)
        with (digits_value base (take (length all - Z.to_nat len) all
                                 ++ drop (length all - Z.to_nat len) all))
        by (by rewrite take_drop).
      rewrite digits_value_app.
      assert (Hl : Z.of_nat (length (drop (length all - Z.to_nat len) all))
                   = len) by (rewrite length_drop; lia).
      rewrite Hl, Z.add_comm, Z.mod_add by lia.
      symmetry. apply Z.mod_small.
      pose proof (digits_value_bound
                    (drop (length all - Z.to_nat len) all)
                    (Forall_drop _ _ _ Hall)) as Hbound.
      by rewrite Hl in Hbound.
    + done.
    + lia.
  - split_and!.
    + rewrite length_app, length_replicate. lia.
    + apply Forall_app. split; [|done].
      apply Forall_replicate. unfold is_digit. lia.
    + rewrite digits_value_zeros. symmetry. apply Z.mod_small.
      pose proof (digits_value_bound all Hall) as Hbound.
      assert (base ^ Z.of_nat (length all) ≤ base ^ len)
        by (apply Z.pow_le_mono_r; lia).
      lia.
    + lia.
    + intros _. do 2 f_equal. lia.
Qed.
End Digits.

(** C10. For an integer [n], a base above one and a length [len] that is
    not negative, [IntegerDigits[n, base, len]] is a list of exactly [len]
    digits of the base, which write [|n|] modulo [base ^ len]: the last
    [len] of the digits of [n] when there are that many, these digits after
    zeros when there are fewer, and no digit at all for [len = 0]. The sign
    of [n] plays no part. *)
Theorem IntegerDigits_length (n base len : Z) :
  1 < base →
  0 ≤ len →
  ∃ digits : list Z,
    IntegerDigits_apply_len (Integer n) (Integer base) (Integer len)
    = Value (List_ (map Integer digits))
    ∧ length digits = Z.to_nat len
    ∧ Forall (is_digit base) digits
    ∧ digits_value base digits = Z.abs n mod base ^ len
    ∧ (let all := convert_int_to_digit_list n base in
       (len ≤ Z.of_nat (length all) →
        digits = drop (length all - Z.to_nat len) all)
       ∧ (Z.of_nat (length all) < len →
          digits = replicate (Z.to_nat len - length all) 0 ++ all))
    ∧ (len = 0 → digits = [])
    ∧ IntegerDigits_apply_len (Integer (- n)) (Integer base) (Integer len)
      = IntegerDigits_apply_len (Integer n) (Integer base) (Integer len).
Proof.
  intros Hbase Hlen.
  destruct (convert_int_to_digit_list_spec base Hbase n) as [Hall Hval].
  assert (Hopp :
    IntegerDigits_apply_len (Integer (- n)) (Integer base) (Integer len)
    = IntegerDigits_apply_len (Integer n) (Integer base) (Integer len)).
  { unfold IntegerDigits_apply_len, IntegerDigits_apply.
    by rewrite convert_int_to_digit_list_opp. }
  unfold IntegerDigits_apply_len in *.
  destruct (Z.geb_spec len 0) as [_|?]; [|lia].
  unfold IntegerDigits_apply in *.
  destruct (Z.ltb_spec 1 base) as [_|?]; [|lia].
  destruct len as [|len|len]; [| |lia].
  - exists []. split_and!; try done.
    + by rewrite Z.pow_0_r, Z.mod_1_r.
    + change (Z.to_nat 0) with 0%nat. by rewrite Nat.sub_0_r, drop_all.
    + lia.
  - destruct (sized_digits base Hbase (convert_int_to_digit_list n base)
                (Z.pos len)) as (Hl & Hd & Hv & Hdrop & Hpad); [lia|done|].
    eexists. split; [reflexivity|].
    split; [exact Hl|]. split; [exact Hd|].
    split; [by rewrite Hv, Hval|].
    split; [split; [exact Hdrop | exact Hpad]|].
    split; [lia | done].
Qed.

(** [IntegerDigits[-76543, 10, 3]] *)
Lemma IntegerDigits_length_witness :
  ∃ digits : list Z,
    IntegerDigits_apply_len (Integer (-76543)) (Integer 10) (Integer 3)
    = Value (List_ (map Integer digits))
    ∧ length digits = 3%nat
    ∧ Forall (is_digit 10) digits
    ∧ digits_value 10 digits = 543.
Proof.
  destruct (IntegerDigits_length (-76543) 10 3) as
    (digits & Happly & Hlength & Hdigits & Hvalue & _); [lia | lia |].
  exists digits. split_and!; done.
Defined.

(** * Further properties *)

(** ** [N] *)

Section NFurther.
Variable round_number : expr → option Q → expr.
Variable ev : Evaluation.

Abbreviation N_at e prec := (apply_other round_number ev e prec).

(** X1. [N] gives a value exactly when the precision is [MachinePrecision]
    or has a float value; the float value is not asked for
    [MachinePrecision]. *)
Theorem N_value_iff_precision (e prec : expr) :
  (∃ v, N_at e prec = Value v)
  ↔ get_name prec = "System`MachinePrecision"
    ∨ is_Some (get_float_value ev prec).
Proof.
  unfold apply_other, requested_digits.
  destruct (String.eqb_spec (get_name prec) "System`MachinePrecision")
    as [Hname|Hname].
  - split; [by left | eauto].
  - destruct (get_float_value ev prec) as [d|] eqn:Hfloat.
    + split; [right; eauto | eauto].
    + split; [by intros [v [=]] | intros [?|[d [=]]]; done].
Qed.

(** X2. At a good precision [N] of a list or rule keeps the head and gives,
    leaf by leaf, what [N] gives for the leaf; neither [NValues] nor the
    attributes of the head are looked at. *)
Theorem N_threads_over_lists (head prec : expr) (leaves : list expr)
                             (d : option Q) :
  requested_digits ev prec = Some d →
  get_name head ∈ ["System`List"; "System`Rule"] →
  ∃ leaves',
    N_at (Expression head leaves) prec = Value (Expression head leaves')
    ∧ Forall2 (fun leaf leaf' => N_at leaf prec = Value leaf')
              leaves leaves'.
Proof.
  intros Hd Hhead.
  exists (map (numericize round_number ev d prec) leaves). split.
  - unfold apply_other. rewrite Hd. simpl.
    unfold threads. by rewrite bool_decide_eq_true_2.
  - apply Forall2_fmap_r, Forall_Forall2_diag, Forall_forall.
    intros leaf _. unfold apply_other. by rewrite Hd.
Qed.

(** X3. For a number the result of [N] is the number itself if it is a
    machine real and its rounding otherwise, in every session in which the
    precision is the same: the definitions and the evaluator play no
    part. *)
Theorem N_number_any_session (ev' : Evaluation) (e prec : expr)
                             (d : option Q) :
  is_Number e = true →
  requested_digits ev prec = Some d →
  requested_digits ev' prec = Some d →
  N_at e prec
  = Value (match e with MachineReal _ => e | _ => round_number e d end)
  ∧ apply_other round_number ev' e prec = N_at e prec.
Proof.
  intros Hnum Hd Hd'. unfold apply_other. rewrite Hd, Hd'.
  by destruct e.
Qed.

Lemma convert_leaf_length (prec : expr) (range : list nat)
                          (leaves : list expr) :
  length (fold_left (convert_leaf ev prec) range leaves) = length leaves.
Proof.
  revert leaves. induction range as [|i range IH]; intros leaves;
    [reflexivity|].
  simpl. rewrite IH. unfold convert_leaf.
  destruct (leaves !! i); [apply length_insert | reflexivity].
Qed.

(** X4. At a good precision [N] of a compound expression to which
    [NValues] gives no value, or of a list or rule, is a compound
    expression with as many leaves. *)
Theorem N_keeps_arity (head prec : expr) (leaves : list expr)
                      (d : option Q) :
  let e := Expression head leaves in
  requested_digits ev prec = Some d →
  (get_name head ∈ ["System`List"; "System`Rule"]
   ∨ get_lookup_name e = ""
   ∨ get_value (definitions ev) (get_lookup_name e) "System`NValues"
               (N_request e prec) = None) →
  ∃ head' leaves',
    N_at e prec = Value (Expression head' leaves')
    ∧ length leaves' = length leaves.
Proof.
  intros e Hd Hcase. subst e. unfold apply_other. rewrite Hd. simpl.
  destruct (threads head) eqn:Hthreads.
  - eexists _, _. split; [reflexivity|]. apply length_map.
  - destruct Hcase as [Hhead|Hnone].
    { unfold threads in Hthreads.
      by rewrite bool_decide_eq_true_2 in Hthreads. }
    unfold numericize_other. rewrite (nvalue_none ev _ prec Hnone). simpl.
    eexists _, _. split; [reflexivity|]. apply convert_leaf_length.
Qed.
End NFurther.

(** [N[{a, "abc"}]] after [N[a] = 10.9] *)
Lemma N_threads_over_lists_witness :
  ∃ leaves',
    apply_other round_model (engine defs_a 3)
                (List_ [Symbol "Global`a"; String "abc"]) MachinePrecision
    = Value (List_ leaves')
    ∧ Forall2 (fun leaf leaf' =>
                 apply_other round_model (engine defs_a 3) leaf
                             MachinePrecision = Value leaf')
              [Symbol "Global`a"; String "abc"] leaves'.
Proof.
  apply (N_threads_over_lists round_model (engine defs_a 3)
           (Symbol "System`List") MachinePrecision
           [Symbol "Global`a"; String "abc"] None);
    [reflexivity | decide_by_computation].
Defined.

(** [N[1/3, 30]] in a session with and without definitions *)
Lemma N_number_any_session_witness :
  apply_other round_model (engine defs_a 3) (Rational (1 # 3)) (Integer 30)
  = Value (PrecisionReal (1 # 3) 30)
  ∧ apply_other round_model (engine no_definitions 1) (Rational (1 # 3))
                (Integer 30)
    = apply_other round_model (engine defs_a 3) (Rational (1 # 3))
                  (Integer 30).
Proof.
  apply (N_number_any_session round_model (engine defs_a 3)
           (engine no_definitions 1) (Rational (1 # 3)) (Integer 30)
           (Some (inject_Z 30))); reflexivity.
Defined.

(** [N[f[1, 2]]] for an [f] with [NHoldRest] *)
Lemma N_keeps_arity_witness :
  ∃ head' leaves',
    apply_other round_model (engine defs_hold 3)
                (Expression (Symbol "Global`f") [Integer 1; Integer 2])
                MachinePrecision
    = Value (Expression head' leaves')
    ∧ length leaves' = 2%nat.
Proof.
  apply (N_keeps_arity round_model (engine defs_hold 3)
           (Symbol "Global`f") MachinePrecision [Integer 1; Integer 2] None);
    [reflexivity | right; right; reflexivity].
Defined.

(** ** [Precision] *)

Lemma MachineNumberQ_inexact (e : expr) :
  MachineNumberQ e = true → is_inexact e = true.
Proof.
  unfold is_inexact.
  induction e as [v|v|v|v p|re im IHre IHim|n|s|h ls _ _]
    using expr_leaves_ind; simpl; try done.
  intros [Hre|Him]%orb_true_iff.
  - specialize (IHre Hre). by destruct (get_precision re).
  - specialize (IHim Him). destruct (get_precision re); [done|].
    by destruct (get_precision im).
Qed.

(** X5. [Precision[z]] is [Infinity] exactly for a [z] that is not inexact,
    such as an integer, a rational, a complex number of exact parts or a
    string; no inexact number has the precision [Infinity]. *)
Theorem Precision_Infinity_iff_exact (z : expr) :
  Precision z = Symbol "System`Infinity" ↔ is_inexact z = false.
Proof.
  unfold Precision, Precision_apply.
  destruct (MachineNumberQ z) eqn:Hmachine.
  - rewrite (MachineNumberQ_inexact z Hmachine). split; discriminate.
  - unfold is_inexact. destruct (get_precision z) as [digits|]; simpl.
    + destruct (is_zero z); split; discriminate.
    + done.
Qed.

(** ** [Chop] *)

Lemma chop_part_idempotent (delta : Q) (part : expr) :
  chop_part delta (chop_part delta part) = chop_part delta part.
Proof.
  unfold chop_part at 2 3. destruct (to_python part) as [v|] eqn:Hv.
  - destruct (within delta v) eqn:Hin.
    + unfold chop_part. cbn [to_python]. by destruct (within delta (inject_Z 0)).
    + unfold chop_part. by rewrite Hv, Hin.
  - unfold chop_part. by rewrite Hv.
Qed.

(** X6. Chopping what was chopped, at the same tolerance, changes
    nothing. *)
Theorem chop_idempotent (delta : Q) (e : expr) :
  chop delta (chop delta e) = chop delta e.
Proof.
  revert delta.
  induction e as [v|v|v|v p|re im _ _|n|s|h ls IHh IHls]
    using expr_leaves_ind; intros delta; try reflexivity.
  - simpl. destruct (within delta v) eqn:Hin; [reflexivity|].
    simpl. by rewrite Hin.
  - simpl. destruct (within delta v) eqn:Hin; [reflexivity|].
    simpl. by rewrite Hin.
  - simpl. by rewrite !chop_part_idempotent.
  - simpl. rewrite IHh. f_equal. rewrite map_map.
    induction IHls as [|x t Hx _ IHt]; [reflexivity|].
    simpl. by rewrite Hx, IHt.
Qed.

(** X7. An expression without an inexact real and without a complex number
    in it is what it was after [chop], at every tolerance. *)
Theorem chop_exact_unchanged (delta : Q) (e : expr) :
  inexact_free e = true → chop delta e = e.
Proof.
  revert delta.
  induction e as [v|v|v|v p|re im _ _|n|s|h ls IHh IHls]
    using expr_leaves_ind; intros delta; simpl; try done.
  intros [Hh Hls]%andb_true_iff. rewrite (IHh _ Hh). f_equal.
  induction IHls as [|x t Hx _ IHt]; [reflexivity|].
  simpl in Hls. apply andb_true_iff in Hls as [Hhx Hht].
  simpl. by rewrite (Hx _ Hhx), (IHt Hht).
Qed.

(** [Chop[f[x, 1/3], 5]] *)
Lemma chop_exact_unchanged_witness :
  chop 5 (Expression (Symbol "Global`f")
                     [Symbol "Global`x"; Rational (1 # 3)])
  = Expression (Symbol "Global`f") [Symbol "Global`x"; Rational (1 # 3)].
Proof. apply chop_exact_unchanged. reflexivity. Defined.

(** X8. For a real leaf: a tolerance that is zero or less chops nothing,
    not even [0.]; and what a tolerance chops, every greater tolerance
    chops. *)
Theorem chop_tolerance_order (delta delta' : Q) (e : expr) :
  is_Real e = true →
  ((delta <= 0)%Q → chop delta e = e)
  ∧ ((delta <= delta')%Q →
     chop delta e = Integer 0 → chop delta' e = Integer 0).
Proof.
  intros Hreal.
  assert (Hchop : ∃ v, ∀ t, chop t e = if within t v then Integer 0 else e)
    by (destruct e; try discriminate; eexists; reflexivity).
  destruct Hchop as [v Hchop]. rewrite !Hchop. split.
  - intros Hdelta. destruct (within delta v) eqn:Hin; [|reflexivity].
    apply within_bounds in Hin. lra.
  - intros Hle Hzero. destruct (within delta v) eqn:Hin.
    + apply within_bounds in Hin.
      assert (Hin' : within delta' v = true) by (apply within_bounds; lra).
      by rewrite Hin'.
    + destruct e; discriminate.
Qed.

(** [Chop[0., 0]], and [Chop[0.25, 1/2]] with [Chop[0.25, 1]] *)
Lemma chop_tolerance_order_witness :
  chop 0 (MachineReal 0) = MachineReal 0
  ∧ chop 1 (MachineReal (1 # 4)) = Integer 0.
Proof.
  split.
  - apply (chop_tolerance_order 0 0 (MachineReal 0)); [reflexivity | lra].
  - apply (chop_tolerance_order (1 # 2) 1 (MachineReal (1 # 4)));
      [reflexivity | lra | reflexivity].
Defined.

(** X9. [Chop[expr, delta]] chops with [delta] when [delta] evaluates to a
    machine real that is not negative; for a negative machine real, and
    for a [delta] that evaluates to no number, it reports [tolnn] and
    leaves the call. *)
Theorem Chop_apply_tolerance (ev : Evaluation) (e delta : expr) :
  (∀ d, evaluate ev delta = MachineReal d → (0 <= d)%Q →
        Chop_apply ev e delta = Value (chop d e))
  ∧ (∀ d, evaluate ev delta = MachineReal d → (d < 0)%Q →
          Chop_apply ev e delta = Unevaluated [Message "Chop" "tolnn" []])
  ∧ (is_Number (evaluate ev delta) = false →
     Chop_apply ev e delta = Unevaluated [Message "Chop" "tolnn" []]).
Proof.
  unfold Chop_apply, Qltb. split_and!.
  - intros d -> Hd. apply Qle_bool_iff in Hd. simpl. by rewrite Hd.
  - intros d -> Hd. simpl.
    destruct (Qle_bool 0 d) eqn:Hle; [|reflexivity].
    apply Qle_bool_iff in Hle. lra.
  - intros Hnumber. by destruct (evaluate ev delta).
Qed.

(** ** [NumericQ] *)

(** X10. In a numeric expression every leaf at every depth is numeric; an
    atom among them is a number or a numeric constant, never a string or
    another symbol. *)
Theorem NumericQ_arguments (defs : Definitions) (e a : expr) :
  test defs e = true →
  argument_of a e →
  test defs a = true ∧ (is_atom a = true → is_numeric a = true).
Proof.
  intros He Ha.
  assert (Hta : test defs a = true).
  { induction Ha as [|head leaves leaf Hin _ IH]; [done|].
    apply IH. simpl in He. apply andb_true_iff in He as [_ Hall].
    rewrite forallb_forall in Hall. apply Hall. by apply list_elem_of_In. }
  split; [done|]. by destruct a.
Qed.

(** [Pi] in [Plus[1, Plus[Pi, 2]]] *)
Lemma NumericQ_arguments_witness :
  test defs_plus (Symbol "System`Pi") = true
  ∧ (is_atom (Symbol "System`Pi") = true
     → is_numeric (Symbol "System`Pi") = true).
Proof.
  apply (NumericQ_arguments defs_plus
           (Expression (Symbol "System`Plus")
              [Integer 1;
               Expression (Symbol "System`Plus")
                          [Symbol "System`Pi"; Integer 2]]));
    [reflexivity|].
  eapply argument_below; [right; left|].
  eapply argument_below; [left|].
  apply argument_here.
Defined.

(** ** [IntegerDigits] *)

(** X11. The arguments are checked in a fixed order. A length that is no
    integer or is negative gives [intnn], whatever [n] and the base are;
    then an [n] that is no integer gives [int] with the two-argument call;
    then a base that is no integer above one gives [ibase] with the base.
    The two-argument form checks [n] and the base alike. *)
Theorem IntegerDigits_argument_checks (n base len : expr) :
  let int_message :=
    Unevaluated [Message "IntegerDigits" "int"
                   [Expression (Symbol "System`IntegerDigits") [n; base]]] in
  let ibase_message :=
    Unevaluated [Message "IntegerDigits" "ibase" [base]] in
  ((∀ l, len = Integer l → l < 0) →
   IntegerDigits_apply_len n base len
   = Unevaluated [Message "IntegerDigits" "intnn" []])
  ∧ ((∀ v, n ≠ Integer v) →
     (∀ nr, IntegerDigits_apply n base nr = int_message)
     ∧ (∀ l, 0 ≤ l →
             IntegerDigits_apply_len n base (Integer l) = int_message))
  ∧ ((∃ v, n = Integer v) → (∀ b, base = Integer b → b ≤ 1) →
     (∀ nr, IntegerDigits_apply n base nr = ibase_message)
     ∧ (∀ l, 0 ≤ l →
             IntegerDigits_apply_len n base (Integer l) = ibase_message)).
Proof.
  intros int_message ibase_message. split_and!.
  - intros Hlen. unfold IntegerDigits_apply_len.
    destruct len as [l| | | | | | |]; try reflexivity.
    specialize (Hlen l eq_refl).
    destruct (Z.geb_spec l 0); [lia | reflexivity].
  - intros Hn.
    assert (Happly : ∀ nr, IntegerDigits_apply n base nr = int_message)
      by (intros nr; destruct n as [v| | | | | | |];
          [by destruct (Hn v) | reflexivity ..]).
    split; [exact Happly|]. intros l Hl. unfold IntegerDigits_apply_len.
    destruct (Z.geb_spec l 0); [apply Happly | lia].
  - intros [v ->] Hbase.
    assert (Happly : ∀ nr, IntegerDigits_apply (Integer v) base nr
                           = ibase_message).
    { intros nr. unfold IntegerDigits_apply.
      destruct base as [b| | | | | | |]; try reflexivity.
      specialize (Hbase b eq_refl).
      destruct (Z.ltb_spec 1 b); [lia | reflexivity]. }
    split; [exact Happly|]. intros l Hl. unfold IntegerDigits_apply_len.
    destruct (Z.geb_spec l 0); [apply Happly | lia].
Qed.

(** X12. With a base above one and a length that is not negative, the
    three-argument form gives the last [len] entries of what the
    two-argument form gives for [n] and the base, after [len] zeros were
    put in front of it. *)
Theorem IntegerDigits_len_of_digits (n base len : Z) :
  1 < base →
  0 ≤ len →
  ∃ all : list Z,
    IntegerDigits_apply (Integer n) (Integer base) None
    = Value (List_ (map Integer all))
    ∧ IntegerDigits_apply_len (Integer n) (Integer base) (Integer len)
      = Value (List_ (map Integer
                        (drop (length all)
                              (replicate (Z.to_nat len) 0 ++ all)))).
Proof.
  intros Hbase Hlen. exists (convert_int_to_digit_list n base).
  set (all := convert_int_to_digit_list n base).
  unfold IntegerDigits_apply_len.
  destruct (Z.geb_spec len 0) as [_|?]; [|lia].
  unfold IntegerDigits_apply. fold all.
  destruct (Z.ltb_spec 1 base) as [_|?]; [|lia].
  split; [reflexivity|].
  destruct len as [|len|len]; [| |lia].
  - simpl. by rewrite drop_all.
  - do 3 f_equal.
    destruct (Z.geb_spec (Z.of_nat (length all)) (Z.pos len)) as [Hge|Hlt].
    + rewrite drop_app_ge by (rewrite length_replicate; lia).
      rewrite length_replicate. unfold slice_from.
      destruct (Z.ltb_spec (- Z.pos len) 0); [|lia]. f_equal. lia.
    + rewrite drop_app_le by (rewrite length_replicate; lia).
      rewrite drop_replicate. do 2 f_equal. lia.
Qed.

(** [IntegerDigits[1234, 10]] and [IntegerDigits[1234, 10, 5]] *)
Lemma IntegerDigits_len_of_digits_witness :
  ∃ all : list Z,
    IntegerDigits_apply (Integer 1234) (Integer 10) None
    = Value (List_ (map Integer all))
    ∧ IntegerDigits_apply_len (Integer 1234) (Integer 10) (Integer 5)
      = Value (List_ (map Integer
                        (drop (length all) (replicate 5 0 ++ all)))).
Proof. apply (IntegerDigits_len_of_digits 1234 10 5); lia. Defined.

(** ** [Hash] *)

Lemma supported_lookup_none (name : string) :
  name ∉ supported_names → _supported_hashes !! name = None.
Proof.
  intros Hname. unfold _supported_hashes.
  apply not_elem_of_list_to_map_1. exact Hname.
Qed.

(** X13. [compute] gives a value for the eight supported names and for no
    other; the value is the integer of the digest of all the bytes, in the
    order in which they were fed. *)
Theorem compute_value_iff_supported
    (hexdigest : hash_function → list Byte.byte → Z)
    (user_hash : list (list Byte.byte)) (name : string) :
  ((∃ v, compute hexdigest user_hash name = Value v)
   ↔ name ∈ supported_names)
  ∧ ∀ v, compute hexdigest user_hash name = Value v →
         ∃ f, _supported_hashes !! name = Some f
              ∧ v = Integer (hexdigest f (concat user_hash)).
Proof.
  unfold compute. split; [split|].
  - intros [v Hv]. destruct (decide (name ∈ supported_names)); [done|].
    by rewrite supported_lookup_none in Hv.
  - unfold supported_names. intros Hin.
    repeat (apply elem_of_cons in Hin as [->|Hin]; [by eexists|]).
    by apply elem_of_nil in Hin.
  - intros v Hv. destruct (_supported_hashes !! name) as [f|]; [|done].
    injection Hv as <-. eauto.
Qed.

Lemma int_16_format_x (v : Z) : int_16 (format_x v) = Some v.
Proof.
  unfold int_16, format_x.
  rewrite NilZero.isi.
  - simpl. f_equal. apply HexadecimalZ.of_to.
  - destruct v as [|p|p]; try discriminate.
    intros [= H]. by apply HexadecimalPos.Unsigned.to_uint_nonnil in H.
  - destruct v as [|p|p]; try discriminate.
    intros [= H]. by apply HexadecimalPos.Unsigned.to_uint_nonnil in H.
Qed.

Lemma ZLibHash_update_all (chunks : list (list Byte.byte)) (h : ZLibHash) :
  fold_left ZLibHash_update chunks h
  = {| _bytes := _bytes h ++ concat chunks; _fn := _fn h |}.
Proof.
  revert h. induction chunks as [|c chunks IH]; intros h; simpl.
  - rewrite app_nil_r. by destruct h.
  - rewrite IH. simpl. by rewrite <- app_assoc.
Qed.

(** X14. For a zlib hash the integer that [compute] reads back from the
    hexadecimal digest is the checksum of all the bytes fed, in their
    order, also when it is negative; how the bytes were cut into chunks
    plays no part. *)
Theorem compute_zlib_checksum (fn : list Byte.byte → Z)
                              (user_hash : list (list Byte.byte)) :
  compute_zlib fn user_hash = Some (Integer (fn (concat user_hash))).
Proof.
  unfold compute_zlib, ZLibHash_hexdigest.
  rewrite ZLibHash_update_all. simpl. by rewrite int_16_format_x.
Qed.

(** ** [RealValuedNumberQ] *)

(** X15. For an atom [Internal`RealValuedNumberQ] is [True] exactly when
    the atom is a real number, an integer, a rational or a real; such an
    atom is numeric for [NumericQ]. It is [False] for a complex number,
    which is numeric. *)
Theorem RealValuedNumberQ_atoms (defs : Definitions) (x : expr) :
  is_atom x = true →
  (RealValuedNumberQ x = Symbol "System`True" ↔ is_Some (to_python x))
  ∧ (RealValuedNumberQ x ≠ Symbol "System`True" →
     RealValuedNumberQ x = Symbol "System`False")
  ∧ (RealValuedNumberQ x = Symbol "System`True" → test defs x = true)
  ∧ (∀ re im, x = Complex re im →
       RealValuedNumberQ x = Symbol "System`False" ∧ test defs x = true).
Proof.
  intros Hatom. destruct x; try discriminate; split_and!;
    try (by intros; discriminate);
    try (by split; [eauto | reflexivity]);
    try (by split; [discriminate | intros [? [=]]]);
    try (by intros re' im' [=]; split); done.
Qed.

(** [Internal`RealValuedNumberQ[3/4]] *)
Lemma RealValuedNumberQ_atoms_witness :
  RealValuedNumberQ (Rational (3 # 4)) = Symbol "System`True"
  ∧ test no_definitions (Rational (3 # 4)) = true.
Proof.
  destruct (RealValuedNumberQ_atoms no_definitions (Rational (3 # 4)))
    as (Hiff & _ & Hnumeric & _); [reflexivity|].
  assert (Htrue : RealValuedNumberQ (Rational (3 # 4)) = Symbol "System`True")
    by (apply Hiff; eauto).
  split; [exact Htrue | exact (Hnumeric Htrue)].
Defined.
